(** * Purrify: the reaction module (src/module/reaction.rs)

    A shallow embedding of [ReactionModule::init] and
    [ReactionModule::handle], together with the backend cache manager
    ([backend::BackendManager]) they call. *)

From Stdlib Require Import Ascii.
From stdpp Require Import base gmap strings list pretty.

Open Scope string_scope.
#[local] Set Warnings "-register-all".

(* ================================================================== *)
(** ** String helpers used by the handler *)

(** [str::starts_with]. *)
Definition starts_with (prefix s : string) : bool := String.prefix prefix s.

(** [str::replace]: every non-overlapping occurrence of [pat], scanned
    from the left, is replaced by [rep]. The fuel is the length of the
    subject; [pat] is a non-empty literal at every call site. *)
Fixpoint replace_fuel (fuel : nat) (pat rep s : string) : string :=
  match fuel with
  | O => s
  | S fuel' =>
      match s with
      | EmptyString => EmptyString
      | String c s' =>
          if String.prefix pat s
          then rep ++ replace_fuel fuel' pat rep
                        (String.substring (String.length pat)
                           (String.length s - String.length pat) s)
          else String c (replace_fuel fuel' pat rep s')
      end
  end.

Definition replace (s pat rep : string) : string :=
  replace_fuel (S (String.length s)) pat rep s.

(** [s.splitn(2, "/")] followed by two [next()] calls: the first piece
    always exists, the second exists iff [s] contains a ['/']. *)
Fixpoint split_slash (s : string) : string * option string :=
  match s with
  | EmptyString => (EmptyString, None)
  | String c s' =>
      if Ascii.eqb c "/"%char then (EmptyString, Some s')
      else let '(a, b) := split_slash s' in (String c a, b)
  end.

(** The bullet U+2022 of the source line, as its UTF-8 bytes. *)
Definition bullet : string :=
  String (ascii_of_nat 226) (String (ascii_of_nat 128)
    (String (ascii_of_nat 162) EmptyString)).

(* ================================================================== *)
(** ** Data model *)

(** [UserId] / [ApplicationId]: non-zero 64-bit snowflakes, kept as [N]. *)
Definition UserId := N.

Record Reaction := mkReaction {
  name : string;
  description : string;
  alias : bool;
  backends : list string;
  default_responses : list string;
  bot_responses : list string;
  self_responses : list string
}.

(** [CommandDataOptionValue], restricted to the variants the handler
    distinguishes. *)
Inductive CommandDataOptionValue :=
| SubCommand (opts : list CommandDataOption)
| UserValue (u : UserId)
| OtherValue (s : string)
with CommandDataOption :=
| mkOption (opt_name : string) (opt_value : CommandDataOptionValue).

Definition opt_name (o : CommandDataOption) : string :=
  let '(mkOption n _) := o in n.
Definition opt_value (o : CommandDataOption) : CommandDataOptionValue :=
  let '(mkOption _ v) := o in v.

(** [CommandDataOptionValue::as_user_id]. *)
Definition as_user_id (v : CommandDataOptionValue) : option UserId :=
  match v with UserValue u => Some u | _ => None end.

Record CommandInteraction := mkInteraction {
  data_name : string;
  data_options : list CommandDataOption;
  user_id : UserId;
  application_id : N
}.

(** Cache keys: [(backend, endpoint)]. *)
Abbreviation CacheKey := (string * string)%type.

(** [FetchError] of the backend registry. *)
Inductive FetchError :=
| UnknownBackend | UnknownEndpoint | NetworkFailure | MalformedResponse.

(** Modelled from the spec: the error of [BackendManager::build_cache]. *)
Inductive BuildError := NoPairs.

(** [anyhow::Error] as produced by the handler: a [.context(..)] message
    or a propagated fetch error. *)
Inductive Error :=
| Context (msg : string)
| Fetch (e : FetchError)
| Build (e : BuildError).

(** Observable effects of one invocation, in order. *)
Inductive Event :=
| EGetCached (k : CacheKey)
| ESend (content : string) (image : string)
| ERefresh (k : CacheKey).

Record World := mkWorld {
  store : gmap CacheKey string;
  trace : list Event
}.

(** How a call ends: a value, an [Err] returned with [?], or a panic. *)
Inductive Outcome (A : Type) :=
| Ok (a : A)
| Err (e : Error)
| Panic (msg : string).
Arguments Ok {A} _.
Arguments Err {A} _.
Arguments Panic {A} _.

(** The handler's monad: state (cache store and effect trace) and the
    three outcomes. *)
Definition M (A : Type) : Type := World -> Outcome A * World.

Definition ret {A} (a : A) : M A := fun w => (Ok a, w).
Definition bind {A B} (m : M A) (f : A -> M B) : M B :=
  fun w => match m w with
           | (Ok a, w') => f a w'
           | (Err e, w') => (Err e, w')
           | (Panic s, w') => (Panic s, w')
           end.
Definition throw {A} (e : Error) : M A := fun w => (Err e, w).
Definition panic {A} (s : string) : M A := fun w => (Panic s, w).
Definition emit (e : Event) : M unit :=
  fun w => (Ok tt, mkWorld (store w) (trace w ++ [e])).

(** [let x = m?; k] *)
Notation "'let?' x := m 'in' k" := (bind m (fun x => k))
  (at level 200, x name, m at level 100, k at level 200).

(** [opt.context(msg)?] *)
Definition context {A} (o : option A) (msg : string) : M A :=
  match o with Some a => ret a | None => throw (Context msg) end.

(** [list.get(r % list.len())]: Rust's [%] panics on a zero divisor. *)
Definition rand_get {A} (l : list A) (r : nat) : M (option A) :=
  if Nat.eqb (length l) 0
  then panic "attempt to calculate the remainder with a divisor of zero"
  else ret (l !! (r mod length l)).

(* ================================================================== *)
(** ** The backend cache manager

    [mod backend] (src/module/reaction/backend.rs) is not part of the
    sources; its operations are modelled after the cache manager of the
    specification. *)

Definition FetchResult : Type := (string + FetchError)%type.

(** Modelled from the spec: [BackendManager::get_cached], missing from the
    sources. A pure lookup into the Store: the Store is returned as it
    was, no fetch is made; the call is recorded in the trace. *)
Definition get_cached (backend endpoint : string) : M (option string) :=
  fun w => (Ok (store w !! (backend, endpoint)),
            mkWorld (store w) (trace w ++ [EGetCached (backend, endpoint)])).

(** Modelled from the spec: [BackendManager::refresh_cache], missing from
    the sources. One fetch; on success the new URL overwrites the entry,
    on failure the entry is left as it was and the [FetchError] is
    returned. [fetch] is the outcome the backend's network call yields. *)
Definition refresh_cache (fetch : CacheKey -> FetchResult)
    (backend endpoint : string) : M unit :=
  fun w =>
    let k := (backend, endpoint) in
    let tr := app (trace w) [ERefresh k] in
    match fetch k with
    | inl url => (Ok tt, mkWorld (<[k := url]> (store w)) tr)
    | inr e => (Err (Fetch e), mkWorld (store w) tr)
    end.

(** Modelled from the spec: [BackendManager::build_cache], missing from the
    sources. Best effort over every declared [(backend, endpoint)] pair:
    a successful fetch is put into the Store, a failed one is skipped;
    the warm-up only fails when there is nothing to warm. *)
Definition build_step (fetch : CacheKey -> FetchResult)
    (st : gmap CacheKey string) (k : CacheKey) : gmap CacheKey string :=
  match fetch k with
  | inl url => <[k := url]> st
  | inr _ => st
  end.

Definition build_cache (keys : list CacheKey) (fetch : CacheKey -> FetchResult)
    : (gmap CacheKey string + BuildError)%type :=
  match keys with
  | [] => inr NoPairs
  | _ => inl (fold_left (build_step fetch) keys ∅)
  end.

(* ================================================================== *)
(** ** [ReactionModule::handle] *)

Record ReactionModule := mkModule {
  reactions : list Reaction;
  aliases : list string
}.

(** What the outside world supplies to one invocation: the two
    [rand::random::<usize>()] draws, whether [create_response] succeeds,
    and the outcome of the backend fetch made by [refresh_cache]. *)
Record Env := mkEnv {
  rand_backend : nat;
  rand_response : nat;
  send_ok : bool;
  fetch : CacheKey -> FetchResult
}.

(** [self.reactions.iter().find(|r| r.name == n)] *)
Definition find_reaction (rs : list Reaction) (n : string) : option Reaction :=
  List.find (fun r => String.eqb (name r) n) rs.

(** [options.get(0).and_then(|opt| opt.value.as_user_id())
      .unwrap_or(UserId::new(cmd.application_id.get()))] *)
Definition target_of (options : list CommandDataOption) (app : N) : UserId :=
  match options with
  | o :: _ => match as_user_id (opt_value o) with Some t => t | None => app end
  | [] => app
  end.

Definition mention (u : UserId) : string := "<@" ++ pretty u ++ ">".

(** The response text: placeholder substitution and the source line. *)
Definition render (message : string) (user target : UserId)
    (backend image_url : string) : string :=
  replace (replace message "{user}" (mention user)) "{target}" (mention target)
  ++ String (ascii_of_nat 10) ("-# From: " ++ backend ++ " " ++ bullet
  ++ " [Source](<" ++ image_url ++ ">)").

(** The [let (options, reaction) = if .. else ..] block: the reaction
    named by the subcommand of a [reaction*] command, or by the alias
    command itself. *)
Definition select_reaction (m : ReactionModule) (cmd : CommandInteraction)
    : M (list CommandDataOption * Reaction) :=
  if starts_with "reaction" (data_name cmd) then
    let? subcommand := context (head (data_options cmd)) "no subcommand" in
    let? options := context (match opt_value subcommand with
                             | SubCommand o => Some o
                             | _ => None
                             end) "invalid subcommand" in
    let? reaction := context (find_reaction (reactions m) (opt_name subcommand))
                       "unknown reaction" in
    ret (options, reaction)
  else
    let? reaction := context (find_reaction (reactions m) (data_name cmd))
                       "unknown reaction" in
    ret (data_options cmd, reaction).

Definition handle (m : ReactionModule) (env : Env) (cmd : CommandInteraction)
    : M unit :=
  (* get requested reaction *)
  let? sel := select_reaction m cmd in
  let '(options, reaction) := sel in
  (* get user and target *)
  let user := user_id cmd in
  let target := target_of options (application_id cmd) in
  (* pick random backend *)
  let? bi := rand_get (backends reaction) (rand_backend env) in
  let? backend_info := context bi "no backend" in
  let '(b, e) := split_slash backend_info in
  let? backend := context (Some b) "no backend" in
  let? endpoint := context e "no endpoint" in
  (* fetch reaction gif *)
  let? cached := get_cached backend endpoint in
  let? image_url := context cached "no cached gif" in
  (* build response *)
  let? message :=
    if N.eqb user target then
      let? o := rand_get (self_responses reaction) (rand_response env) in
      context o "no self response"
    else if N.eqb target (application_id cmd) then
      let? o := rand_get (bot_responses reaction) (rand_response env) in
      context o "no bot response"
    else
      let? o := rand_get (default_responses reaction) (rand_response env) in
      context o "no default response" in
  let content := render message user target backend image_url in
  (* [crate::color::rand()] only colours the embed *)
  (* send response *)
  let? _ := emit (ESend content image_url) in
  let status := send_ok env in
  (* refresh cache *)
  let? _ := refresh_cache (fetch env) backend endpoint in
  let? _ := context (if status then Some tt else None) "failed to send response" in
  ret tt.

(* ================================================================== *)
(** ** [ReactionModule::init]: command registration *)

Inductive CommandOptionType := OptSubCommand | OptUser.
Inductive InstallationContext := ICUser | ICGuild.
Inductive InteractionContext := PrivateChannel | GuildContext | BotDm.

(** [CreateCommandOption]: kind, name, description, [required] and the
    sub-options. *)
Inductive CreateCommandOption :=
| mkCreateOption (kind : CommandOptionType) (oname odescription : string)
    (required : bool) (sub_options : list CreateCommandOption).

Definition copt_kind (o : CreateCommandOption) : CommandOptionType :=
  let '(mkCreateOption k _ _ _ _) := o in k.
Definition copt_name (o : CreateCommandOption) : string :=
  let '(mkCreateOption _ n _ _ _) := o in n.

(** [CreateCommandOption::new(kind, name, description)] *)
Definition option_new (k : CommandOptionType) (n d : string) : CreateCommandOption :=
  mkCreateOption k n d false [].
(** [.required(b)] *)
Definition option_required (b : bool) (o : CreateCommandOption) : CreateCommandOption :=
  let '(mkCreateOption k n d _ s) := o in mkCreateOption k n d b s.
(** [.add_sub_option(x)] *)
Definition option_add_sub (x : CreateCommandOption) (o : CreateCommandOption)
    : CreateCommandOption :=
  let '(mkCreateOption k n d r s) := o in mkCreateOption k n d r (s ++ [x]).

Record CreateCommand := mkCommand {
  cmd_name : string;
  cmd_description : string;
  cmd_integration_types : list InstallationContext;
  cmd_contexts : list InteractionContext;
  cmd_options : list CreateCommandOption
}.

(** [CreateCommand::new(name)] followed by [.description(..)],
    [.integration_types(..)] and [.contexts(..)], as both call sites do. *)
Definition command_new (n d : string) : CreateCommand :=
  mkCommand n d [ICUser; ICGuild] [PrivateChannel; GuildContext; BotDm] [].

(** The required ["user"] option. *)
Definition user_option : CreateCommandOption :=
  option_required true (option_new OptUser "user" "The target user.").

(** [slice::chunks(n)]: consecutive slices of [n] elements, the last one
    possibly shorter. The fuel is the length of the slice. *)
Fixpoint chunks_fuel {A} (fuel n : nat) (l : list A) : list (list A) :=
  match fuel with
  | O => []
  | S fuel' =>
      match l with
      | [] => []
      | _ => take n l :: chunks_fuel fuel' n (drop n l)
      end
  end.

Definition chunks {A} (n : nat) (l : list A) : list (list A) :=
  chunks_fuel (length l) n l.

(** [format!("reaction{}", if index > 1 { index_str } else { "" })] *)
Definition command_name (index : nat) : string :=
  "reaction" ++ (if Nat.ltb 1 index then pretty index else "").

(** The command built for the [index]-th batch (counted from 1). *)
Definition reaction_command (index : nat) (batch : list Reaction) : CreateCommand :=
  let c := command_new (command_name index)
             "React to someone with an animated gif." in
  {| cmd_name := cmd_name c; cmd_description := cmd_description c;
     cmd_integration_types := cmd_integration_types c;
     cmd_contexts := cmd_contexts c;
     cmd_options := map (fun i =>
        option_add_sub user_option
          (option_new OptSubCommand (name i) (description i))) batch |}.

(** The individual command of a reaction with [alias] set. *)
Definition alias_command (r : Reaction) : CreateCommand :=
  let c := command_new (name r)
             ("[Alias for /reaction " ++ name r ++ "] " ++ description r) in
  {| cmd_name := cmd_name c; cmd_description := cmd_description c;
     cmd_integration_types := cmd_integration_types c;
     cmd_contexts := cmd_contexts c;
     cmd_options := cmd_options c ++ [user_option] |}.

(** [init]: [built] is the result of [build_cache()]. The reactions are
    stored before the warm-up; the aliases only once it has succeeded. *)
Definition init (m : ReactionModule)
    (built : (gmap CacheKey string + BuildError)%type) (config : list Reaction)
    : Outcome (list CreateCommand) * ReactionModule :=
  let m1 := mkModule config (aliases m) in
  match built with
  | inr e => (Err (Build e), m1)
  | inl _ =>
      let commands := imap (fun i batch => reaction_command (S i) batch)
                        (chunks 25 config) in
      let alias_rs := List.filter alias config in
      (Ok (commands ++ map alias_command alias_rs)%list,
       mkModule config (map name alias_rs))
  end.

(** The matched reaction and its options (the selection block reads no
    state; see [select_reaction_pure]). *)
Definition selected (m : ReactionModule) (cmd : CommandInteraction)
    : Outcome (list CommandDataOption * Reaction) :=
  fst (select_reaction m cmd (mkWorld ∅ [])).

(** The response list [handle] draws from for a given user and target. *)
Definition applicable_responses (r : Reaction) (user target : UserId) (app : N)
    : list string :=
  if N.eqb user target then self_responses r
  else if N.eqb target app then bot_responses r
  else default_responses r.

(** [Module::handles]: [cmd.data.name.starts_with("reaction") ||
    self.aliases.contains(&cmd.data.name)]. *)
Definition handles (m : ReactionModule) (cmd : CommandInteraction) : bool :=
  starts_with "reaction" (data_name cmd) ||
  existsb (String.eqb (data_name cmd)) (aliases m).

(** [ReactionModule::new] when [BackendManager::new()] succeeds: no
    reactions and no aliases yet. *)
Definition module_new : ReactionModule := mkModule [] [].

(* ================================================================== *)
(** ** Concurrent refreshes of one key *)

(** Modelled from the spec: the per-key "refresh in progress" guard of
    [BackendManager::refresh_cache] (missing from the sources). A caller
    finding its key guarded either attaches to the in-flight fetch or is
    dropped; otherwise it marks the key and starts one outbound fetch.
    A completed fetch updates the Store on success, leaves it on failure,
    and clears the mark. *)
Record RefreshState := mkRefreshState {
  rs_store : gmap CacheKey string;
  rs_guard : gset CacheKey;
  rs_fetches : list CacheKey;
  rs_waiters : list CacheKey;
  rs_log : list (CacheKey * FetchResult)
}.

Fixpoint remove_one (k : CacheKey) (l : list CacheKey) : list CacheKey :=
  match l with
  | [] => []
  | k' :: l' => if decide (k = k') then l' else k' :: remove_one k l'
  end.

Fixpoint count_key (k : CacheKey) (l : list CacheKey) : nat :=
  match l with
  | [] => 0
  | k' :: l' => (if decide (k = k') then 1 else 0) + count_key k l'
  end.

Definition store_result (k : CacheKey) (r : FetchResult)
    (st : gmap CacheKey string) : gmap CacheKey string :=
  match r with inl url => <[k := url]> st | inr _ => st end.

Inductive refresh_step : RefreshState -> RefreshState -> Prop :=
| rs_start k s :
    k ∉ rs_guard s ->
    refresh_step s (mkRefreshState (rs_store s) ({[k]} ∪ rs_guard s)
                      (k :: rs_fetches s) (rs_waiters s) (rs_log s))
| rs_attach k s :
    k ∈ rs_guard s ->
    refresh_step s (mkRefreshState (rs_store s) (rs_guard s)
                      (rs_fetches s) (k :: rs_waiters s) (rs_log s))
| rs_drop k s :
    k ∈ rs_guard s ->
    refresh_step s s
| rs_complete k (r : FetchResult) s :
    k ∈ rs_fetches s ->
    refresh_step s (mkRefreshState (store_result k r (rs_store s))
                      (rs_guard s ∖ {[k]}) (remove_one k (rs_fetches s))
                      (List.filter (fun k' => bool_decide (k' ≠ k)) (rs_waiters s))
                      (rs_log s ++ [(k, r)])).

Definition refresh_init (st : gmap CacheKey string) : RefreshState :=
  mkRefreshState st ∅ [] [] [].

(** The URL of the last successful completed fetch of [k]. *)
Fixpoint last_success (k : CacheKey) (log : list (CacheKey * FetchResult))
    : option string :=
  match log with
  | [] => None
  | (k', r) :: log' =>
      match last_success k log' with
      | Some u => Some u
      | None => if decide (k = k') then
                  match r with inl u => Some u | inr _ => None end
                else None
      end
  end.

(** The invariant of the guarded refresh: one fetch in flight for a key
    exactly when the key is marked, and the Store holds, for every key,
    the last successful fetch or else the initial value. *)
Definition refresh_inv (st0 : gmap CacheKey string) (s : RefreshState) : Prop :=
  forall k : CacheKey,
    count_key k (rs_fetches s) = (if decide (k ∈ rs_guard s) then 1 else 0) /\
    rs_store s !! k =
      match last_success k (rs_log s) with Some u => Some u | None => st0 !! k end.

(* ================================================================== *)
(** ** Concrete configuration used by the witnesses *)

Definition hug : Reaction :=
  mkReaction "hug" "Hug someone." true ["giphy/hug"]
    ["{user} hugs {target}"] ["{user} hugs me"] ["{user} hugs themselves"].

Definition hug_module : ReactionModule := mkModule [hug] ["hug"].

(** [/reaction hug user:@42] run by user 7 of application 99. *)
Definition hug_cmd : CommandInteraction :=
  mkInteraction "reaction"
    [mkOption "hug" (SubCommand [mkOption "user" (UserValue 42%N)])] 7%N 99%N.

Definition hug_store : gmap CacheKey string :=
  <[("giphy", "hug") := "https://x/1.gif"]> ∅.

(** The response is sent, the refresh's fetch fails. *)
Definition env_fetch_fails : Env :=
  mkEnv 0 0 true (fun _ => inr NetworkFailure).

Definition scenario_fetch (k : CacheKey) : FetchResult :=
  if decide (k = ("giphy", "hug")) then inl "https://x/1.gif"
  else inr NetworkFailure.

(** [hug] with no self responses, used on oneself. *)
Definition lonely : Reaction :=
  mkReaction "lonely" "Hug yourself." false ["giphy/hug"] ["x"] ["y"] [].

Definition lonely_module : ReactionModule := mkModule [lonely] [].

Definition lonely_cmd : CommandInteraction :=
  mkInteraction "reaction"
    [mkOption "lonely" (SubCommand [mkOption "user" (UserValue 7%N)])] 7%N 99%N.

(** The alias command [/hug] sent with no option by user 7. *)
Definition hug_alias_cmd : CommandInteraction := mkInteraction "hug" [] 7%N 99%N.

(* ================================================================== *)
(** ** Proof automation for the handler *)

(** Destruct the innermost [match] of hypothesis [H]. *)
Ltac inner_case H :=
  match type of H with
  | context [match ?x with _ => _ end] =>
      lazymatch x with
      | context [match _ with _ => _ end] => fail
      | _ => destruct x eqn:?
      end
  end.

(** Run the monadic program in [H] through every path. *)
Ltac run_in H :=
  unfold bind, ret, throw, panic, emit, context, rand_get, get_cached,
    refresh_cache in H;
  repeat (simpl in H; inner_case H); simpl in H; simplify_eq/=.

Lemma select_reaction_pure m cmd w :
  select_reaction m cmd w = (selected m cmd, w).
Proof.
  unfold selected, select_reaction, bind, context, ret, throw.
  destruct (starts_with _ _); [|destruct (find_reaction _ _); reflexivity].
  destruct (head _) as [a|]; [|reflexivity].
  destruct (opt_value a); try reflexivity.
  destruct (find_reaction _ _); reflexivity.
Qed.

(** A path where [list.get(r % list.len())] found nothing on a
    non-empty list is impossible. *)
Ltac absurd_lookup :=
  match goal with
  | H1 : Nat.eqb (length ?l) 0 = false, H2 : ?l !! (?i mod length ?l) = None |- _ =>
      exfalso; apply Nat.eqb_neq in H1; apply lookup_ge_None in H2;
      pose proof (Nat.mod_upper_bound i (length l) H1); lia
  end.

(** Open [handle] in [H] down to the selected reaction. *)
Ltac open_handle H :=
  unfold handle in H; unfold bind at 1 in H;
  rewrite select_reaction_pure in H;
  let Hs := fresh "Hsel" in
  destruct (selected _ _) as [[?opts ?r]| |] eqn:Hs;
  simpl in H; [run_in H | simplify_eq/= ..]; try absurd_lookup.

(** Every run of [handle] leaves one of four traces. *)
Lemma handle_trace_cases m env cmd st o w' :
  handle m env cmd (mkWorld st []) = (o, w') ->
  (trace w' = [] /\ store w' = st) \/
  (exists k, trace w' = [EGetCached k] /\ store w' = st /\
             o = Err (Context "no cached gif") /\ st !! k = None) \/
  (exists k, trace w' = [EGetCached k] /\ store w' = st /\
             (exists u, st !! k = Some u)) \/
  (exists k c u, trace w' = [EGetCached k; ESend c u; ERefresh k] /\
     st !! k = Some u /\
     store w' = match fetch env k with inl url => <[k := url]> st | inr _ => st end /\
     o = match fetch env k with
         | inr e => Err (Fetch e)
         | inl _ => if send_ok env then Ok tt
                    else Err (Context "failed to send response")
         end).
Proof.
  intros H. open_handle H; eauto 20.
  all: right; right; right; eexists _, _, _; split; [reflexivity|].
  all: repeat match goal with
              | Hf : fetch _ _ = _ |- _ => rewrite Hf
              | Hf : send_ok _ = _ |- _ => rewrite Hf
              end; eauto.
Qed.

(* ================================================================== *)
(** ** Claims about [handle] *)

(** C1: when [get_cached] has no value for the selected key, [handle]
    returns the error "no cached gif": the lookup is the only effect (no
    response is sent, nothing is refreshed, the lookup is not retried) and
    the Store is unchanged. *)
Theorem handle_cache_miss_fails m env cmd st o w' k :
  handle m env cmd (mkWorld st []) = (o, w') ->
  EGetCached k ∈ trace w' ->
  st !! k = None ->
  o = Err (Context "no cached gif") /\ trace w' = [EGetCached k] /\ store w' = st.
Proof.
  intros H Hin Hk.
  destruct (handle_trace_cases _ _ _ _ _ _ H)
    as [[Ht Hs]|[[k' [Ht [Hs [Ho Hk']]]]|[[k' [Ht [Hs [u Hu]]]]|
        [k' [c [u [Ht [Hu _]]]]]]]];
    rewrite Ht in Hin |- *; set_solver.
Qed.

Lemma handle_cache_miss_fails_witness :
  handle hug_module env_fetch_fails hug_cmd (mkWorld ∅ []) =
    (Err (Context "no cached gif"), mkWorld ∅ [EGetCached ("giphy", "hug")]) /\
  Err (Context "no cached gif") = @Err unit (Context "no cached gif") /\
  [EGetCached ("giphy", "hug")] = [EGetCached ("giphy", "hug")] /\
  (∅ : gmap CacheKey string) = ∅.
Proof.
  assert (H : handle hug_module env_fetch_fails hug_cmd (mkWorld ∅ []) =
    (Err (Context "no cached gif"), mkWorld ∅ [EGetCached ("giphy", "hug")]))
    by reflexivity.
  split; [exact H|].
  exact (handle_cache_miss_fails _ _ _ _ _ _ ("giphy", "hug") H
           ltac:(simpl; set_solver) ltac:(reflexivity)).
Defined.

(** C2: every run of [handle] first looks the key up with [get_cached],
    then sends the response, and only then calls [refresh_cache] for the
    same key; a run that stops earlier never refreshes. *)
Theorem handle_lookup_send_refresh_order m env cmd st o w' :
  handle m env cmd (mkWorld st []) = (o, w') ->
  trace w' = [] \/
  (exists k, trace w' = [EGetCached k]) \/
  (exists k c u, trace w' = [EGetCached k; ESend c u; ERefresh k]).
Proof.
  intros H.
  destruct (handle_trace_cases _ _ _ _ _ _ H)
    as [[Ht _]|[[k [Ht _]]|[[k [Ht _]]|[k [c [u [Ht _]]]]]]]; eauto 10.
Qed.

Lemma handle_lookup_send_refresh_order_witness :
  exists k c u,
    trace (snd (handle hug_module env_fetch_fails hug_cmd (mkWorld hug_store [])))
      = [EGetCached k; ESend c u; ERefresh k].
Proof.
  destruct (handle_lookup_send_refresh_order hug_module env_fetch_fails hug_cmd
              hug_store _ _ (surjective_pairing _))
    as [H|[[k H]|H]]; [discriminate H | discriminate H | exact H].
Defined.

(** C3 (counterexample): the response to [/reaction hug user:@42] is sent
    successfully, the refresh's fetch then fails, and [handle] returns
    that [FetchError]: the refresh is awaited by [handle] and its error is
    propagated with [?]. *)
Lemma handle_refresh_error_after_sent_response :
  exists c u,
    handle hug_module env_fetch_fails hug_cmd (mkWorld hug_store []) =
      (Err (Fetch NetworkFailure),
       mkWorld hug_store [EGetCached ("giphy", "hug"); ESend c u;
                          ERefresh ("giphy", "hug")]) /\
    send_ok env_fetch_fails = true.
Proof.
  exists (render "{user} hugs {target}" 7%N 42%N "giphy" "https://x/1.gif"),
    "https://x/1.gif".
  split; reflexivity.
Qed.

(** C3 (amended): once the response has been sent, [handle] awaits
    [refresh_cache] for the same key. A failed fetch makes [handle] return
    that [FetchError] whether or not the send succeeded (the send status
    is then not examined) and leaves the Store as it was; a successful
    fetch stores the new URL and [handle] returns the send status. *)
Theorem handle_refresh_outcome m env cmd st o w' k c u :
  handle m env cmd (mkWorld st []) = (o, w') ->
  trace w' = [EGetCached k; ESend c u; ERefresh k] ->
  o = match fetch env k with
      | inr e => Err (Fetch e)
      | inl _ => if send_ok env then Ok tt
                 else Err (Context "failed to send response")
      end /\
  store w' = match fetch env k with inl url => <[k := url]> st | inr _ => st end.
Proof.
  intros H Ht.
  destruct (handle_trace_cases _ _ _ _ _ _ H)
    as [[Ht' _]|[[k' [Ht' _]]|[[k' [Ht' _]]|[k' [c' [u' [Ht' [_ [Hs Ho]]]]]]]]];
    rewrite Ht in Ht'; try discriminate.
  simplify_eq. auto.
Qed.

Lemma handle_refresh_outcome_witness :
  exists c u,
    handle hug_module env_fetch_fails hug_cmd (mkWorld hug_store []) =
      (Err (Fetch NetworkFailure),
       mkWorld hug_store [EGetCached ("giphy", "hug"); ESend c u;
                          ERefresh ("giphy", "hug")]) /\
    Err (Fetch NetworkFailure) = @Err unit (Fetch NetworkFailure) /\
    hug_store = hug_store.
Proof.
  exists (render "{user} hugs {target}" 7%N 42%N "giphy" "https://x/1.gif"),
    "https://x/1.gif".
  assert (H : handle hug_module env_fetch_fails hug_cmd (mkWorld hug_store []) =
    (Err (Fetch NetworkFailure),
     mkWorld hug_store [EGetCached ("giphy", "hug"); ESend
       (render "{user} hugs {target}" 7%N 42%N "giphy" "https://x/1.gif")
       "https://x/1.gif"; ERefresh ("giphy", "hug")])) by reflexivity.
  split; [exact H|].
  exact (handle_refresh_outcome _ _ _ _ _ _ _ _ _ H eq_refl).
Defined.

(** C4: [get_cached] is a pure lookup: it returns the Store's current
    value for the key ([None] when the key is not cached), leaves the
    Store unchanged and performs no fetch (the only effect recorded is the
    lookup itself; it is a plain call, not an [.await]). *)
Theorem get_cached_pure_lookup (b e : string) (w : World) :
  get_cached b e w =
    (Ok (store w !! (b, e)), mkWorld (store w) (trace w ++ [EGetCached (b, e)])).
Proof. reflexivity. Qed.

(* ================================================================== *)
(** ** Claims about the cache manager *)

(** C5: a [refresh_cache] whose fetch fails returns the [FetchError] and
    leaves the Store, and so the populated entry, exactly as it was. *)
Theorem refresh_cache_failure_keeps_entry (fetch : CacheKey -> FetchResult)
    (b e : string) (w : World) (v : string) (err : FetchError) :
  store w !! (b, e) = Some v ->
  fetch (b, e) = inr err ->
  fst (refresh_cache fetch b e w) = Err (Fetch err) /\
  store (snd (refresh_cache fetch b e w)) = store w /\
  store (snd (refresh_cache fetch b e w)) !! (b, e) = Some v.
Proof.
  intros Hv Hf. unfold refresh_cache. rewrite Hf. simpl. auto.
Qed.

Lemma refresh_cache_failure_keeps_entry_witness :
  fst (refresh_cache scenario_fetch "giphy" "slap"
         (mkWorld (<[("giphy", "slap") := "https://x/0.gif"]> ∅) [])) =
    Err (Fetch NetworkFailure) /\
  store (snd (refresh_cache scenario_fetch "giphy" "slap"
         (mkWorld (<[("giphy", "slap") := "https://x/0.gif"]> ∅) []))) =
    <[("giphy", "slap") := "https://x/0.gif"]> ∅ /\
  store (snd (refresh_cache scenario_fetch "giphy" "slap"
         (mkWorld (<[("giphy", "slap") := "https://x/0.gif"]> ∅) []))) !!
    ("giphy", "slap") = Some "https://x/0.gif".
Proof.
  exact (refresh_cache_failure_keeps_entry scenario_fetch "giphy" "slap"
           (mkWorld (<[("giphy", "slap") := "https://x/0.gif"]> ∅) [])
           "https://x/0.gif" NetworkFailure eq_refl eq_refl).
Defined.

Lemma build_fold_lookup (fetch : CacheKey -> FetchResult) (keys : list CacheKey) :
  forall (acc : gmap CacheKey string) (k : CacheKey),
  fold_left (build_step fetch) keys acc !! k =
    if decide (k ∈ keys)
    then match fetch k with inl u => Some u | inr _ => acc !! k end
    else acc !! k.
Proof.
  induction keys as [|k0 keys IH]; intros acc k; cbn [fold_left].
  - case_decide; [set_solver | done].
  - rewrite IH. unfold build_step.
    destruct (decide (k ∈ keys)), (decide (k ∈ k0 :: keys)); try set_solver.
    + destruct (fetch k) eqn:Hk; [done|].
      destruct (decide (k = k0)) as [->|Hne]; [rewrite Hk; done|].
      destruct (fetch k0); simplify_map_eq; done.
    + destruct (decide (k = k0)) as [->|Hne]; [|set_solver].
      destruct (fetch k0); simplify_map_eq; done.
    + assert (k ≠ k0) by set_solver.
      destruct (fetch k0); simplify_map_eq; done.
Qed.

(** C6: after a completed [build_cache], every declared pair whose fetch
    succeeded holds its URL and every declared pair whose fetch failed is
    absent, whatever the other pairs' fetches did; nothing else is in the
    Store. *)
Theorem build_cache_best_effort (keys : list CacheKey)
    (fetch : CacheKey -> FetchResult) (st : gmap CacheKey string) :
  build_cache keys fetch = inl st ->
  forall k : CacheKey,
    st !! k = if decide (k ∈ keys)
              then match fetch k with inl u => Some u | inr _ => None end
              else None.
Proof.
  intros H k. unfold build_cache in H.
  assert (Hst : st = fold_left (build_step fetch) keys ∅)
    by (destruct keys; [discriminate | congruence]).
  subst st. rewrite build_fold_lookup.
  destruct (decide _); [destruct (fetch k)|]; by rewrite ?lookup_empty.
Qed.

(** The scenario of the specification: "giphy/hug" is fetched, "giphy/slap"
    fails and is absent. *)
Lemma build_cache_best_effort_witness :
  exists st,
    build_cache [("giphy", "hug"); ("giphy", "slap")] scenario_fetch = inl st /\
    st !! ("giphy", "hug") = Some "https://x/1.gif" /\
    st !! ("giphy", "slap") = None.
Proof.
  exists (fold_left (build_step scenario_fetch)
            [("giphy", "hug"); ("giphy", "slap")] ∅).
  split; [reflexivity|].
  pose proof (build_cache_best_effort [("giphy", "hug"); ("giphy", "slap")]
                scenario_fetch _ eq_refl) as Hb.
  split; (etransitivity; [apply Hb | reflexivity]).
Defined.

(* ================================================================== *)
(** ** Random selection: [rand::random::<usize>() % list.len()] *)

(** C8 (counterexample): the self-response list is empty, yet [handle]
    does not panic: the cache lookup misses first and the call ends with
    the error "no cached gif". *)
Lemma handle_empty_responses_cache_miss_no_panic :
  fst (handle lonely_module env_fetch_fails lonely_cmd (mkWorld ∅ [])) =
    Err (Context "no cached gif") /\
  applicable_responses lonely 7%N
    (target_of [mkOption "user" (UserValue 7%N)] 99%N) 99%N = [].
Proof. split; reflexivity. Qed.

Lemma rand_get_nonempty {A} (l : list A) (i : nat) (w : World) :
  l <> [] ->
  exists x, l !! (i mod length l) = Some x /\ rand_get l i w = (Ok (Some x), w).
Proof.
  intros Hl. destruct l as [|a l']; [congruence|].
  destruct (lookup_lt_is_Some_2 (a :: l') (i mod length (a :: l')))
    as [x Hx]; [apply Nat.mod_upper_bound; simpl; lia|].
  exists x. split; [done|]. unfold rand_get.
  replace (Nat.eqb (length (a :: l')) 0) with false by reflexivity.
  unfold ret. rewrite Hx. done.
Qed.

(** C8 (amended): for the matched reaction [r],
    - an empty [backends] list makes [handle] panic (remainder by zero);
    - an empty applicable response list ([self_responses] when the user is
      the target, [bot_responses] when the target is the bot,
      [default_responses] otherwise) makes [handle] panic once the cache
      lookup has succeeded; an earlier error (a backend entry without a
      ['/'], a cache miss) ends the call first;
    - the errors "no backend", "no self response", "no bot response" and
      "no default response" are never returned;
    - for a non-empty list the index [r % len] is in range and the access
      succeeds. *)
Theorem handle_rand_mod_len m env cmd st opts r :
  selected m cmd = Ok (opts, r) ->
  (backends r = [] ->
     exists msg, fst (handle m env cmd (mkWorld st [])) = Panic msg) /\
  (forall o w' k url,
     handle m env cmd (mkWorld st []) = (o, w') ->
     EGetCached k ∈ trace w' -> st !! k = Some url ->
     applicable_responses r (user_id cmd) (target_of opts (application_id cmd))
       (application_id cmd) = [] ->
     exists msg, o = Panic msg) /\
  (forall msg, fst (handle m env cmd (mkWorld st [])) = Err (Context msg) ->
     msg <> "no backend" /\ msg <> "no self response" /\
     msg <> "no bot response" /\ msg <> "no default response") /\
  (forall (l : list string) (i : nat) (w : World),
     l <> [] -> exists x, l !! (i mod length l) = Some x /\
                          rand_get l i w = (Ok (Some x), w)).
Proof.
  intros Hsel. split; [|split; [|split]].
  - intros Hb. destruct (handle m env cmd _) as [o w'] eqn:H. simpl.
    open_handle H; rewrite ?Hb in *; simplify_eq/=; eauto.
  - intros o w' k url H Hin Hk Happ.
    open_handle H; simplify_eq/=; try set_solver.
    all: rewrite ?list_elem_of_singleton in Hin; simplify_eq; try congruence.
    all: unfold applicable_responses in Happ.
    all: repeat match goal with
                | Hq : N.eqb _ _ = _ |- _ => rewrite Hq in Happ
                end.
    all: rewrite ?Happ in *; simplify_eq/=; eauto.
    all: congruence.
  - intros msg. destruct (handle m env cmd _) as [o w'] eqn:H. simpl.
    intros ->. open_handle H.
    all: repeat split; discriminate.
  - intros l i w Hl. by apply rand_get_nonempty.
Qed.

(** [lonely] used on oneself with the key cached: the empty self-response
    list makes [handle] panic. *)
Lemma handle_rand_mod_len_witness :
  exists msg,
    fst (handle lonely_module env_fetch_fails lonely_cmd (mkWorld hug_store [])) =
      Panic msg.
Proof.
  destruct (handle_rand_mod_len lonely_module env_fetch_fails lonely_cmd
              hug_store [mkOption "user" (UserValue 7%N)] lonely eq_refl)
    as [_ [H2 _]].
  destruct (H2 _ _ ("giphy", "hug") "https://x/1.gif" (surjective_pairing _))
    as [msg Hmsg].
  - vm_compute. left.
  - reflexivity.
  - reflexivity.
  - exists msg. exact Hmsg.
Defined.

(* ================================================================== *)
(** ** The default target *)

Lemma target_of_default (opts : list CommandDataOption) (app : N) :
  (forall op, head opts = Some op -> as_user_id (opt_value op) = None) ->
  target_of opts app = app.
Proof.
  intros H. destruct opts as [|op opts]; [done|]. simpl.
  by rewrite (H op eq_refl).
Qed.

(** C10: when the first option is missing or carries no user id, the
    target is the application's id; an invocation by another user that
    sends a response takes its text from [bot_responses]. *)
Theorem handle_default_target_bot m env cmd st opts r o w' c u :
  selected m cmd = Ok (opts, r) ->
  (forall op, head opts = Some op -> as_user_id (opt_value op) = None) ->
  user_id cmd <> application_id cmd ->
  handle m env cmd (mkWorld st []) = (o, w') ->
  ESend c u ∈ trace w' ->
  target_of opts (application_id cmd) = application_id cmd /\
  exists msg b,
    bot_responses r !! (rand_response env mod length (bot_responses r)) = Some msg /\
    c = render msg (user_id cmd) (application_id cmd) b u.
Proof.
  intros Hsel Hopt Hne H Hin.
  pose proof (target_of_default opts (application_id cmd) Hopt) as Ht.
  split; [done|].
  open_handle H; simplify_eq/=.
  all: rewrite ?elem_of_cons, ?list_elem_of_singleton in Hin.
  all: rewrite ?Ht in *.
  all: repeat match goal with
              | Hq : N.eqb _ _ = true |- _ => apply N.eqb_eq in Hq
              | Hq : N.eqb _ _ = false |- _ => apply N.eqb_neq in Hq
              end.
  all: set_solver.
Qed.

Lemma handle_default_target_bot_witness :
  exists c u,
    ESend c u ∈ trace (snd (handle hug_module env_fetch_fails hug_alias_cmd
                              (mkWorld hug_store []))) /\
    target_of [] 99%N = 99%N /\
    exists msg b,
      bot_responses hug !! (0 mod length (bot_responses hug)) = Some msg /\
      c = render msg 7%N 99%N b u.
Proof.
  set (c := render "{user} hugs me" 7%N 99%N "giphy" "https://x/1.gif").
  exists c, "https://x/1.gif".
  assert (Hin : ESend c "https://x/1.gif" ∈
            trace (snd (handle hug_module env_fetch_fails hug_alias_cmd
                          (mkWorld hug_store [])))).
  { assert (Htr : trace (snd (handle hug_module env_fetch_fails hug_alias_cmd
                                 (mkWorld hug_store []))) =
              [EGetCached ("giphy", "hug"); ESend c "https://x/1.gif";
               ERefresh ("giphy", "hug")]) by reflexivity.
    rewrite Htr. set_solver. }
  split; [exact Hin|].
  exact (handle_default_target_bot hug_module env_fetch_fails hug_alias_cmd
           hug_store [] hug _ _ c "https://x/1.gif" eq_refl
           ltac:(intros op Hop; discriminate) ltac:(discriminate)
           (surjective_pairing _) Hin).
Defined.

(* ================================================================== *)
(** ** Command registration *)

Section Chunks.
Context {A : Type} (n : nat) (Hn : 0 < n).

Lemma chunks_fuel_concat (fuel : nat) (l : list A) :
  length l <= fuel -> concat (chunks_fuel fuel n l) = l.
Proof.
  revert l. induction fuel as [|fuel IH]; intros l Hl.
  - destruct l; [done | simpl in Hl; lia].
  - destruct l as [|a l'] eqn:El; [done|].
    rewrite <- El. cbn [chunks_fuel]. rewrite El. cbn [concat].
    rewrite <- El, IH.
    + apply take_drop.
    + rewrite length_drop. subst l. simpl in *. lia.
Qed.

Lemma chunks_fuel_bound (fuel : nat) (l : list A) (c : list A) :
  c ∈ chunks_fuel fuel n l -> length c <= n.
Proof.
  revert l. induction fuel as [|fuel IH]; intros l Hc; [set_solver|].
  destruct l as [|a l'] eqn:El; [set_solver|].
  rewrite <- El in Hc. cbn [chunks_fuel] in Hc. rewrite El in Hc.
  rewrite elem_of_cons in Hc. destruct Hc as [->|Hc].
  - rewrite length_take. lia.
  - eauto.
Qed.
End Chunks.

(** [chunks(25)] yields ceil(len/25) slices. *)
Lemma chunks_fuel_length_25 {A} (fuel : nat) (l : list A) :
  length l <= fuel ->
  length (chunks_fuel fuel 25 l) = (length l + 24) / 25.
Proof.
  revert l. induction fuel as [|fuel IH]; intros l Hl.
  - destruct l; [reflexivity | simpl in Hl; lia].
  - destruct l as [|a l'] eqn:El; [reflexivity|].
    rewrite <- El. cbn [chunks_fuel]. rewrite El.
    cbn [length]. rewrite IH by (rewrite length_drop; simpl in *; lia).
    rewrite length_drop. cbn [length].
    set (len := S (length l')).
    pose proof (Nat.div_mod (len + 24) 25 ltac:(lia)) as E1.
    pose proof (Nat.mod_upper_bound (len + 24) 25 ltac:(lia)) as B1.
    pose proof (Nat.div_mod (len - 25 + 24) 25 ltac:(lia)) as E2.
    pose proof (Nat.mod_upper_bound (len - 25 + 24) 25 ltac:(lia)) as B2.
    assert (len >= 1) by (subst len; lia).
    lia.
Qed.

Lemma map_cmd_options_imap (g : nat -> list Reaction -> CreateCommand)
    (h : list Reaction -> list CreateCommandOption) (l : list (list Reaction)) :
  (forall i b, cmd_options (g i b) = h b) ->
  map cmd_options (imap g l) = map h l.
Proof.
  revert g. induction l as [|b l IH]; intros g Hg; [done|].
  rewrite imap_cons. simpl. rewrite Hg. f_equal. apply IH.
  intros i b'. apply Hg.
Qed.

Lemma command_name_index (i : nat) :
  command_name (S i) = if Nat.eqb i 0 then "reaction" else "reaction" ++ pretty (S i).
Proof. destruct i; reflexivity. Qed.

(** C9: once the warm-up has succeeded, [init] returns
    ceil(n/25) commands named "reaction", "reaction2", "reaction3", ...,
    each with at most 25 subcommand options, one per reaction in
    configuration order; followed by one command per reaction whose
    [alias] flag is set, named like it; and it records exactly those names
    as the module's aliases. *)
Theorem init_registers_commands (m : ReactionModule) (st : gmap CacheKey string)
    (config : list Reaction) :
  exists reaction_cmds alias_cmds,
    init m (inl st) config =
      (Ok (reaction_cmds ++ alias_cmds)%list,
       mkModule config (map name (List.filter alias config))) /\
    length reaction_cmds = (length config + 24) / 25 /\
    (forall i c, reaction_cmds !! i = Some c ->
       cmd_name c = (if Nat.eqb i 0 then "reaction" else "reaction" ++ pretty (S i)) /\
       length (cmd_options c) <= 25 /\
       Forall (fun o => copt_kind o = OptSubCommand) (cmd_options c)) /\
    map copt_name (concat (map cmd_options reaction_cmds)) = map name config /\
    map cmd_name alias_cmds = map name (List.filter alias config).
Proof.
  eexists _, _. split; [reflexivity|].
  split; [|split; [|split]].
  - rewrite length_imap. unfold chunks.
    by rewrite chunks_fuel_length_25.
  - intros i c Hc. apply list_lookup_imap_Some in Hc as [b [Hb ->]].
    rewrite <- command_name_index. split; [reflexivity|].
    simpl. rewrite length_map. split.
    + apply (chunks_fuel_bound 25 ltac:(lia) (length config) config).
      by eapply list_elem_of_lookup_2.
    + clear Hb. induction b; simpl; constructor; auto.
  - rewrite (map_cmd_options_imap _
      (map (fun i => option_add_sub user_option
                       (option_new OptSubCommand (name i) (description i))))).
    + rewrite concat_map, map_map.
      rewrite (map_ext _ (map name)) by (intros b; rewrite map_map; reflexivity).
      rewrite <- concat_map. unfold chunks.
      by rewrite (chunks_fuel_concat 25 ltac:(lia)).
    + reflexivity.
  - rewrite map_map. reflexivity.
Qed.

(* ================================================================== *)
(** ** Concurrent refreshes of one key: the guard's invariant *)

Lemma count_key_pos (k : CacheKey) (l : list CacheKey) :
  k ∈ l -> 0 < count_key k l.
Proof.
  induction l as [|k' l IH]; intros Hk; [set_solver|].
  simpl. rewrite elem_of_cons in Hk. case_decide; [lia|].
  destruct Hk as [->|Hk]; [congruence | specialize (IH Hk); lia].
Qed.

Lemma count_key_remove_one (k k2 : CacheKey) (l : list CacheKey) :
  k ∈ l ->
  count_key k2 (remove_one k l) =
    if decide (k2 = k) then count_key k2 l - 1 else count_key k2 l.
Proof.
  induction l as [|k' l IH]; intros Hk; [set_solver|].
  simpl. rewrite elem_of_cons in Hk. destruct (decide (k = k')) as [<-|Hne].
  - case_decide; simpl; lia.
  - destruct Hk as [->|Hk]; [congruence|]. simpl. rewrite IH by done.
    pose proof (count_key_pos k l Hk).
    repeat case_decide; subst; try congruence; lia.
Qed.

Lemma last_success_snoc (k k' : CacheKey) (r : FetchResult)
    (log : list (CacheKey * FetchResult)) :
  last_success k (log ++ [(k', r)]) =
    match r with
    | inl u => if decide (k = k') then Some u else last_success k log
    | inr _ => last_success k log
    end.
Proof.
  induction log as [|[k0 r0] log IH]; simpl.
  - destruct r; case_decide; done.
  - rewrite IH. destruct r as [u|e]; [|done].
    destruct (decide (k = k')); [done|].
    destruct (last_success k log); done.
Qed.

Lemma refresh_inv_step st0 s s' :
  refresh_inv st0 s -> refresh_step s s' -> refresh_inv st0 s'.
Proof.
  intros Hinv Hstep k. destruct (Hinv k) as [Hc Hs].
  destruct Hstep as [k1 s Hg|k1 s Hg|k1 s Hg|k1 r s Hf]; simpl; try done.
  - split; [|done].
    rewrite Hc. repeat case_decide; subst; first [lia | set_solver].
  - assert (Hk1 : k1 ∈ rs_guard s).
    { destruct (Hinv k1) as [Hc1 _]. pose proof (count_key_pos _ _ Hf).
      destruct (decide (k1 ∈ rs_guard s)); [done | lia]. }
    split.
    + rewrite count_key_remove_one by done. rewrite Hc.
      repeat case_decide; subst; first [lia | set_solver].
    + rewrite last_success_snoc. unfold store_result.
      destruct r as [u|e]; [|done].
      destruct (decide (k = k1)) as [->|Hne]; simplify_map_eq; done.
Qed.

Lemma refresh_inv_reachable st0 s :
  rtc refresh_step (refresh_init st0) s -> refresh_inv st0 s.
Proof.
  intros Hr.
  assert (Hi : refresh_inv st0 (refresh_init st0)) by (intros k; split; done).
  induction Hr as [x|x y z Hxy Hyz IH]; [done|].
  apply IH. by eapply refresh_inv_step.
Qed.

(** C7 (counterexample): with "giphy/hug" cached, one refresh starts a
    fetch that fails. Every fetch has completed, yet the Store's value is
    not the result of any completed fetch: it is the value from before. *)
Lemma refresh_failed_only_fetch_keeps_prior_value :
  exists s,
    rtc refresh_step (refresh_init hug_store) s /\
    rs_fetches s = [] /\
    rs_log s = [(("giphy", "hug"), inr NetworkFailure)] /\
    rs_store s !! ("giphy", "hug") = Some "https://x/1.gif" /\
    ~ (exists u, (("giphy", "hug"), inl u) ∈ rs_log s).
Proof.
  set (k := ("giphy", "hug")).
  set (s1 := mkRefreshState hug_store ({[k]} ∪ ∅) [k] [] []).
  eexists. split; [|split; [|split; [|split]]].
  - eapply rtc_l; [apply (rs_start k); set_solver|].
    eapply rtc_l; [apply (rs_complete k (inr NetworkFailure)); simpl; set_solver|].
    apply rtc_refl.
  - reflexivity.
  - reflexivity.
  - reflexivity.
  - simpl. intros [u Hu]. rewrite list_elem_of_singleton in Hu. discriminate.
Qed.

(** C7 (amended): however the refresh requests for a key interleave
    (each new caller finding the key marked attaches to the in-flight
    fetch or is dropped), at most one outbound fetch for the key is in
    flight at any time, and the Store's value for the key is the URL of
    the last successful completed fetch, or the key's value from before
    when no fetch of it has succeeded. *)
Theorem refresh_at_most_one_fetch (st0 : gmap CacheKey string)
    (s : RefreshState) (k : CacheKey) :
  rtc refresh_step (refresh_init st0) s ->
  count_key k (rs_fetches s) <= 1 /\
  rs_store s !! k =
    match last_success k (rs_log s) with Some u => Some u | None => st0 !! k end.
Proof.
  intros Hr. destruct (refresh_inv_reachable st0 s Hr k) as [Hc Hs].
  split; [|done]. rewrite Hc. case_decide; lia.
Qed.

(** Two callers refresh "giphy/hug": the second attaches, the fetch
    succeeds. *)
Lemma refresh_at_most_one_fetch_witness :
  exists s,
    rtc refresh_step (refresh_init hug_store) s /\
    count_key ("giphy", "hug") (rs_fetches s) <= 1 /\
    rs_store s !! ("giphy", "hug") = Some "https://x/2.gif".
Proof.
  set (k := ("giphy", "hug")).
  assert (Hr : rtc refresh_step (refresh_init hug_store)
     (mkRefreshState (store_result k (inl "https://x/2.gif") hug_store)
        (({[k]} ∪ ∅) ∖ {[k]}) (remove_one k [k])
        (List.filter (fun k' => bool_decide (k' ≠ k)) [k])
        ([] ++ [(k, inl "https://x/2.gif")]))).
  { eapply rtc_l; [apply (rs_start k); set_solver|].
    eapply rtc_l; [apply (rs_attach k); simpl; set_solver|].
    eapply rtc_l; [apply (rs_complete k (inl "https://x/2.gif")); simpl; set_solver|].
    apply rtc_refl. }
  eexists. split; [exact Hr|].
  destruct (refresh_at_most_one_fetch hug_store _ k Hr) as [Hc Hs].
  split; [exact Hc|]. rewrite Hs. reflexivity.
Defined.

(* ================================================================== *)
(** ** Further properties of [handle], [handles], [new] and [init] *)

(** [splitn(2, "/")]: the first piece is everything before the first
    ['/'], the second everything after it. *)
Lemma split_slash_some (s b e : string) :
  split_slash s = (b, Some e) ->
  s = b ++ String "/" e /\ (forall b1 b2, b <> b1 ++ String "/" b2).
Proof.
  revert b e. induction s as [|c s IH]; intros b e H; simpl in H; [discriminate|].
  destruct (Ascii.eqb c "/") eqn:Hc.
  - apply Ascii.eqb_eq in Hc. simplify_eq. split; [reflexivity|].
    intros [|c1 b1] b2; discriminate.
  - destruct (split_slash s) as [a o] eqn:Hs. simplify_eq.
    destruct (IH a e eq_refl) as [-> Ha]. split; [reflexivity|].
    intros [|c1 b1] b2 Heq; simpl in Heq; injection Heq as Hc1 Heq.
    + subst c. discriminate Hc.
    + by apply (Ha b1 b2).
Qed.

(** [iter().find]: the found element is the first one satisfying the
    predicate. *)
Lemma find_first {A} (f : A -> bool) (l : list A) (x : A) :
  List.find f l = Some x ->
  exists l1 l2, l = (l1 ++ x :: l2)%list /\ f x = true /\ Forall (fun y => f y = false) l1.
Proof.
  induction l as [|y l IH]; simpl; [discriminate|].
  destruct (f y) eqn:Hy; intros H.
  - simplify_eq. exists [], l. auto.
  - destruct (IH H) as (l1 & l2 & -> & Hx & Hl1).
    exists (y :: l1), l2. auto.
Qed.

(** The selection block either yields a reaction or fails with one of
    its three errors; it never panics. *)
Lemma selected_cases m cmd :
  (exists opts r, selected m cmd = Ok (opts, r)) \/
  (exists msg, selected m cmd = Err (Context msg) /\
     msg ∈ ["no subcommand"; "invalid subcommand"; "unknown reaction"]).
Proof.
  unfold selected, select_reaction, bind, context, ret, throw.
  repeat case_match; simplify_eq/=; eauto;
    right; eexists; (split; [reflexivity | set_solver]).
Qed.

Lemma pretty_N_go_length (x : N) (s : string) :
  String.length s <= String.length (pretty_N_go x s).
Proof.
  revert s. induction (N.lt_wf_0 x) as [x _ IH]; intros s.
  destruct (decide (x = 0%N)) as [->|Hx]; [by rewrite pretty_N_go_0|].
  rewrite pretty_N_go_step by lia.
  etrans; [|apply IH; apply N.div_lt; lia]. simpl. lia.
Qed.

Lemma pretty_nat_nonempty (n : nat) : pretty n <> "".
Proof.
  change (pretty n) with (pretty (N.of_nat n)). unfold pretty, pretty_N.
  destruct (decide (N.of_nat n = 0%N)); [discriminate|].
  rewrite pretty_N_go_step by lia. intros Heq.
  pose proof (pretty_N_go_length (N.of_nat n `div` 10)
                (String (pretty_N_char (N.of_nat n `mod` 10)) "")) as Hl.
  rewrite Heq in Hl. simpl in Hl. lia.
Qed.

(** Distinct batch indices give distinct command names. *)
Lemma command_name_inj (i j : nat) :
  command_name (S i) = command_name (S j) -> i = j.
Proof.
  rewrite !command_name_index.
  destruct i as [|i], j as [|j]; simpl; intros H; [done|..].
  - change "reaction" with ("reaction" +:+ "") in H at 1.
    apply (inj (String.append "reaction")) in H.
    by destruct (pretty_nat_nonempty (S (S j))).
  - change "reaction" with ("reaction" +:+ "") in H at 2.
    apply (inj (String.append "reaction")) in H.
    by destruct (pretty_nat_nonempty (S (S i))).
  - apply (inj (String.append "reaction")), (inj pretty) in H. lia.
Qed.

(** X1: after a successful [init], [handles] accepts every command [init]
    registered: the batch commands by their "reaction" prefix, the alias
    commands because their names are the recorded aliases. *)
Theorem init_commands_handled (m : ReactionModule) (st : gmap CacheKey string)
    (config : list Reaction) cmds m' c cmd :
  init m (inl st) config = (Ok cmds, m') ->
  c ∈ cmds ->
  data_name cmd = cmd_name c ->
  handles m' cmd = true.
Proof.
  intros H Hc Hn. unfold init in H. simplify_eq/=.
  unfold handles. rewrite Hn. apply orb_true_intro.
  apply elem_of_app in Hc as [Hc|Hc].
  - left. apply list_elem_of_lookup in Hc as [i Hi].
    apply list_lookup_imap_Some in Hi as [b [_ ->]].
    destruct i as [|i]; [reflexivity|].
    apply String.prefix_correct. simpl. by destruct (pretty (S (S i))).
  - right. apply list_elem_of_fmap in Hc as [r [-> Hr]].
    apply existsb_exists. exists (name r). split.
    + apply in_map. by apply list_elem_of_In.
    + apply String.eqb_refl.
Qed.

Lemma init_commands_handled_witness :
  handles (snd (init module_new (inl ∅) [hug])) hug_alias_cmd = true.
Proof.
  refine (init_commands_handled module_new ∅ [hug] _ _ (alias_command hug)
            hug_alias_cmd eq_refl _ eq_refl).
  simpl. set_solver.
Defined.

(** X2: the batch commands [init] registers have pairwise distinct
    names; the alias commands follow them, one per reaction with [alias]
    set. *)
Theorem init_reaction_names_distinct (m : ReactionModule)
    (st : gmap CacheKey string) (config : list Reaction) cmds m' :
  init m (inl st) config = (Ok cmds, m') ->
  exists reaction_cmds,
    cmds = (reaction_cmds ++ map alias_command (List.filter alias config))%list /\
    NoDup (cmd_name <$> reaction_cmds).
Proof.
  intros H. unfold init in H. simplify_eq/=.
  eexists. split; [reflexivity|].
  apply NoDup_alt. intros i j x Hi Hj.
  apply list_lookup_fmap_Some in Hi as [c [-> Hi]].
  apply list_lookup_fmap_Some in Hj as [c' [Heq Hj]].
  apply list_lookup_imap_Some in Hi as [b [_ ->]].
  apply list_lookup_imap_Some in Hj as [b' [_ ->]].
  by apply command_name_inj.
Qed.

Lemma init_reaction_names_distinct_witness :
  exists reaction_cmds,
    fst (init module_new (inl ∅) [hug]) = Ok (reaction_cmds ++ [alias_command hug])%list /\
    NoDup (cmd_name <$> reaction_cmds).
Proof.
  destruct (init_reaction_names_distinct module_new ∅ [hug] _ _ eq_refl)
    as [rc [Hc Hn]].
  exists rc. split; [|exact Hn].
  change (map alias_command (List.filter alias [hug])) with [alias_command hug] in Hc.
  rewrite <- Hc. reflexivity.
Defined.

(** X3: a run of [handle] that ends before the cache lookup leaves no
    trace and the Store as it was; it has panicked (no backend to pick
    from) or failed with one of the errors of the selection block or
    "no endpoint". Conversely each of those errors is returned only
    without any effect. *)
Theorem handle_stops_before_lookup m env cmd st o w' :
  handle m env cmd (mkWorld st []) = (o, w') ->
  (trace w' = [] ->
     store w' = st /\
     ((exists msg, o = Panic msg) \/
      (exists msg, o = Err (Context msg) /\
         msg ∈ ["no subcommand"; "invalid subcommand"; "unknown reaction";
                "no endpoint"]))) /\
  (forall msg, o = Err (Context msg) ->
     msg ∈ ["no subcommand"; "invalid subcommand"; "unknown reaction";
            "no endpoint"] ->
     trace w' = [] /\ store w' = st).
Proof.
  intros H. pose proof (selected_cases m cmd) as Hc.
  open_handle H.
  all: destruct Hc as [(opts' & r' & Hc)|(msg' & Hc & Hm)]; simplify_eq.
  all: split; [intros Ht; simpl in Ht; try discriminate Ht |
               intros msg Hmsg Hin; simplify_eq; try set_solver].
  all: split; [reflexivity|]; eauto.
  all: right; eexists; split; [reflexivity|]; set_solver.
Qed.

Lemma handle_stops_before_lookup_witness :
  handle hug_module env_fetch_fails (mkInteraction "wave" [] 7%N 99%N)
    (mkWorld hug_store []) =
    (Err (Context "unknown reaction"), mkWorld hug_store []) /\
  [] = @nil Event /\ hug_store = hug_store.
Proof.
  assert (H : handle hug_module env_fetch_fails (mkInteraction "wave" [] 7%N 99%N)
    (mkWorld hug_store []) =
    (Err (Context "unknown reaction"), mkWorld hug_store [])) by reflexivity.
  split; [exact H|].
  exact (proj2 (handle_stops_before_lookup _ _ _ _ _ _ H) "unknown reaction"
           eq_refl ltac:(set_solver)).
Defined.

(** X4: [handle] returns [Ok] only after the whole run: the looked-up key
    was cached, the response carrying the cached URL was sent and its
    send succeeded, and the refresh fetched a new URL that replaced the
    entry. *)
Theorem handle_ok_effects m env cmd st w' :
  handle m env cmd (mkWorld st []) = (Ok tt, w') ->
  exists k c u url,
    trace w' = [EGetCached k; ESend c u; ERefresh k] /\
    st !! k = Some u /\ send_ok env = true /\ fetch env k = inl url /\
    store w' = <[k := url]> st.
Proof.
  intros H. open_handle H; eauto 10.
Qed.

Lemma handle_ok_effects_witness :
  exists k c u url,
    trace (snd (handle hug_module (mkEnv 0 0 true (fun _ => inl "https://x/2.gif"))
                  hug_cmd (mkWorld hug_store []))) =
      [EGetCached k; ESend c u; ERefresh k] /\
    hug_store !! k = Some u /\ true = true /\
    (fun _ : CacheKey => @inl string FetchError "https://x/2.gif") k = inl url /\
    store (snd (handle hug_module (mkEnv 0 0 true (fun _ => inl "https://x/2.gif"))
                  hug_cmd (mkWorld hug_store []))) = <[k := url]> hug_store.
Proof.
  exact (handle_ok_effects hug_module (mkEnv 0 0 true (fun _ => inl "https://x/2.gif"))
           hug_cmd hug_store _ (surjective_pairing _)).
Defined.

(** X5: a panicking run of [handle] has sent no response and refreshed
    nothing; the Store is unchanged. *)
Theorem handle_panic_no_effect m env cmd st msg w' :
  handle m env cmd (mkWorld st []) = (Panic msg, w') ->
  store w' = st /\
  (forall c u, ESend c u ∉ trace w') /\ (forall k, ERefresh k ∉ trace w').
Proof.
  intros H.
  destruct (handle_trace_cases _ _ _ _ _ _ H)
    as [[Ht Hs]|[(k & Ht & Hs & _)|[(k & Ht & Hs & _)|(k & c & u & Ht & _ & _ & Ho)]]].
  1-3: rewrite Ht, Hs; split; [reflexivity|]; split; intros; set_solver.
  destruct (fetch env k), (send_ok env); discriminate Ho.
Qed.

Lemma handle_panic_no_effect_witness :
  exists msg,
    handle lonely_module env_fetch_fails lonely_cmd (mkWorld hug_store []) =
      (Panic msg, mkWorld hug_store [EGetCached ("giphy", "hug")]) /\
    hug_store = hug_store /\
    (forall c u, ESend c u ∉ [EGetCached ("giphy", "hug")]) /\
    (forall k, ERefresh k ∉ [EGetCached ("giphy", "hug")]).
Proof.
  eexists.
  assert (H : handle lonely_module env_fetch_fails lonely_cmd (mkWorld hug_store []) =
    (Panic "attempt to calculate the remainder with a divisor of zero",
     mkWorld hug_store [EGetCached ("giphy", "hug")])) by reflexivity.
  split; [exact H|].
  exact (handle_panic_no_effect _ _ _ _ _ _ H).
Defined.

(** X6: the key [handle] looks up is the entry of the matched reaction's
    [backends] list at index [rand % len], split at its first ['/']: the
    backend is the part before it (it contains no ['/']) and the endpoint
    the rest. *)
Theorem handle_lookup_key m env cmd st o w' b e :
  handle m env cmd (mkWorld st []) = (o, w') ->
  EGetCached (b, e) ∈ trace w' ->
  exists opts r,
    selected m cmd = Ok (opts, r) /\
    backends r !! (rand_backend env mod length (backends r)) =
      Some (b ++ String "/" e) /\
    (forall b1 b2, b <> b1 ++ String "/" b2).
Proof.
  intros H Hin. open_handle H.
  all: rewrite ?elem_of_cons, ?list_elem_of_singleton in Hin.
  all: repeat match goal with Hx : _ \/ _ |- _ => destruct Hx as [Hx|Hx] end.
  all: try (exfalso; set_solver).
  all: simplify_eq.
  all: match goal with
       | Hx : split_slash _ = (_, Some _) |- _ => apply split_slash_some in Hx as [-> ?]
       end.
  all: exists opts, r; eauto.
Qed.

Lemma handle_lookup_key_witness :
  exists opts r,
    selected hug_module hug_cmd = Ok (opts, r) /\
    backends r !! (0 mod length (backends r)) = Some ("giphy" ++ String "/" "hug") /\
    (forall b1 b2, "giphy" <> b1 ++ String "/" b2).
Proof.
  exact (handle_lookup_key hug_module env_fetch_fails hug_cmd hug_store _ _
           "giphy" "hug" (surjective_pairing _) ltac:(vm_compute; left)).
Defined.

(** X7: the response [handle] sends carries the URL cached under the
    looked-up key as its image; its text is the response template at index
    [rand % len] of the list chosen for the user and the target, with the
    placeholders substituted and the source line naming that backend and
    URL appended. *)
Theorem handle_sent_content m env cmd st o w' c u :
  handle m env cmd (mkWorld st []) = (o, w') ->
  ESend c u ∈ trace w' ->
  exists opts r b e msg,
    let target := target_of opts (application_id cmd) in
    let l := applicable_responses r (user_id cmd) target (application_id cmd) in
    selected m cmd = Ok (opts, r) /\
    EGetCached (b, e) ∈ trace w' /\ st !! (b, e) = Some u /\
    l !! (rand_response env mod length l) = Some msg /\
    c = render msg (user_id cmd) target b u.
Proof.
  intros H Hin. open_handle H.
  all: rewrite ?elem_of_cons, ?list_elem_of_singleton in Hin.
  all: repeat match goal with Hx : _ \/ _ |- _ => destruct Hx as [Hx|Hx] end.
  all: try (exfalso; set_solver).
  all: simplify_eq.
  all: exists opts, r, s0, s1; eexists; simpl; unfold applicable_responses.
  all: repeat match goal with Hq : N.eqb _ _ = _ |- _ => rewrite Hq end.
  all: (split; [reflexivity|]); (split; [set_solver|]); eauto.
Qed.

Lemma handle_sent_content_witness :
  exists opts r b e msg,
    let target := target_of opts 99%N in
    let l := applicable_responses r 7%N target 99%N in
    selected hug_module hug_cmd = Ok (opts, r) /\
    EGetCached (b, e) ∈ [EGetCached ("giphy", "hug");
      ESend (render "{user} hugs {target}" 7%N 42%N "giphy" "https://x/1.gif")
        "https://x/1.gif"; ERefresh ("giphy", "hug")] /\
    hug_store !! (b, e) = Some "https://x/1.gif" /\
    l !! (0 mod length l) = Some msg /\
    render "{user} hugs {target}" 7%N 42%N "giphy" "https://x/1.gif" =
      render msg 7%N target b "https://x/1.gif".
Proof.
  assert (H : handle hug_module env_fetch_fails hug_cmd (mkWorld hug_store []) =
    (Err (Fetch NetworkFailure),
     mkWorld hug_store [EGetCached ("giphy", "hug"); ESend
       (render "{user} hugs {target}" 7%N 42%N "giphy" "https://x/1.gif")
       "https://x/1.gif"; ERefresh ("giphy", "hug")])) by reflexivity.
  exact (handle_sent_content _ _ _ _ _ _
           (render "{user} hugs {target}" 7%N 42%N "giphy" "https://x/1.gif")
           "https://x/1.gif" H ltac:(set_solver)).
Defined.

(** X8: [handle] changes the Store at most at the key it looked up: every
    other entry is left as it was. *)
Theorem handle_store_frame m env cmd st o w' k :
  handle m env cmd (mkWorld st []) = (o, w') ->
  EGetCached k ∉ trace w' ->
  store w' !! k = st !! k.
Proof.
  intros H Hk.
  destruct (handle_trace_cases _ _ _ _ _ _ H)
    as [[_ ->]|[(k' & _ & -> & _)|[(k' & _ & -> & _)|(k' & c & u & Ht & _ & -> & _)]]];
    [reflexivity..|].
  rewrite Ht in Hk. destruct (fetch env k'); [|reflexivity].
  apply lookup_insert_ne. set_solver.
Qed.

Lemma handle_store_frame_witness :
  store (snd (handle hug_module (mkEnv 0 0 true (fun _ => inl "https://x/2.gif"))
                hug_cmd (mkWorld hug_store []))) !! ("giphy", "pat") =
    hug_store !! ("giphy", "pat").
Proof.
  refine (handle_store_frame hug_module (mkEnv 0 0 true (fun _ => inl "https://x/2.gif"))
            hug_cmd hug_store _ _ ("giphy", "pat") (surjective_pairing _) _).
  vm_compute. intros Hin. inversion Hin as [|? ? ? Hin']; subst.
  inversion Hin' as [|? ? ? Hin'']; subst.
  inversion Hin'' as [|? ? ? Hin''']; subst.
  inversion Hin'''.
Defined.

(** X9: on a module just returned by [ReactionModule::new] (no reactions
    registered yet) [handle] always fails in the selection block, before
    any lookup, send or refresh. *)
Theorem handle_new_module_fails env cmd st :
  exists msg,
    handle module_new env cmd (mkWorld st []) = (Err (Context msg), mkWorld st []) /\
    msg ∈ ["no subcommand"; "invalid subcommand"; "unknown reaction"].
Proof.
  unfold handle, bind at 1. rewrite select_reaction_pure.
  destruct (selected_cases module_new cmd) as [(opts & r & Hs)|(msg & Hs & Hm)].
  - exfalso. revert Hs. unfold selected, select_reaction, bind, context, ret, throw.
    repeat case_match; simpl; discriminate.
  - rewrite Hs. eauto.
Qed.

(** X10: the selection block returns the first registered reaction with
    the requested name: the subcommand's name for a "reaction*" command,
    the command's own name otherwise; reactions later in the list with
    the same name are never selected. *)
Theorem selected_first_by_name m cmd opts r :
  selected m cmd = Ok (opts, r) ->
  (exists l1 l2, reactions m = (l1 ++ r :: l2)%list /\
     Forall (fun r' => name r' <> name r) l1) /\
  (starts_with "reaction" (data_name cmd) = true ->
     exists sub, head (data_options cmd) = Some sub /\
       opt_value sub = SubCommand opts /\ name r = opt_name sub) /\
  (starts_with "reaction" (data_name cmd) = false ->
     opts = data_options cmd /\ name r = data_name cmd).
Proof.
  unfold selected, select_reaction, bind, context, ret, throw, find_reaction.
  destruct (starts_with _ _) eqn:Hp.
  - destruct (head _) as [sub|]; simpl; [|discriminate].
    destruct (opt_value sub) as [o| |] eqn:Hv; simpl; try discriminate.
    destruct (List.find _ _) as [x|] eqn:Hf; simpl; [|discriminate].
    intros Hs. simplify_eq.
    destruct (find_first _ _ _ Hf) as (l1 & l2 & Hl & Hx & Hl1).
    apply String.eqb_eq in Hx.
    split; [|split; [intros _; eauto|discriminate]].
    exists l1, l2. split; [done|].
    eapply Forall_impl; [exact Hl1|]. intros y Hy. simpl in Hy.
    rewrite Hx. by apply String.eqb_neq.
  - destruct (List.find _ _) as [x|] eqn:Hf; simpl; [|discriminate].
    intros Hs. simplify_eq.
    destruct (find_first _ _ _ Hf) as (l1 & l2 & Hl & Hx & Hl1).
    apply String.eqb_eq in Hx.
    split; [|split; [discriminate|auto]].
    exists l1, l2. split; [done|].
    eapply Forall_impl; [exact Hl1|]. intros y Hy. simpl in Hy.
    rewrite Hx. by apply String.eqb_neq.
Qed.

Lemma selected_first_by_name_witness :
  (exists l1 l2, reactions hug_module = (l1 ++ hug :: l2)%list /\
     Forall (fun r' => name r' <> name hug) l1) /\
  (starts_with "reaction" "reaction" = true ->
     exists sub, head (data_options hug_cmd) = Some sub /\
       opt_value sub = SubCommand [mkOption "user" (UserValue 42%N)] /\
       name hug = opt_name sub) /\
  (starts_with "reaction" "reaction" = false ->
     [mkOption "user" (UserValue 42%N)] = data_options hug_cmd /\
     name hug = data_name hug_cmd).
Proof.
  exact (selected_first_by_name hug_module hug_cmd _ _ eq_refl).
Defined.
